(** * redmcalc: the recursive material calculator of [blacksmith2.js]

    A shallow embedding of [calculateMaterials] and of its inner helper
    [processRecipe], with the properties of the demand resolver stated and
    proved over it.

    Modelling choices.
    - JavaScript objects used as dictionaries ([recipes], [materialsNeeded],
      [craftsNeeded]) are finite maps with string keys.  A recipe object is
      iterated with [for ... in], so it is kept as the list of its own
      properties in enumeration order.
    - JavaScript numbers are modelled on the integers, extended with the
      three special values that the code can produce when it divides by a
      non-positive [output] ([Infinity], [-Infinity], [NaN]).  On integers
      below 2^53 in magnitude, [+], [*] and [Math.ceil(a / o)] are exact.
      The two zeros are identified: every divisor is a property of a
      recipe, and every stored value is a sum [(x || 0) + y], whose left
      operand is never [-0].
    - Property names are taken not to collide with the properties every
      object inherits from [Object.prototype], so that a lookup of an absent
      key is [undefined].
    - Recursion is bounded by a fuel argument that counts the depth of the
      JavaScript call stack; [None] stands for "deeper than the fuel". *)

From Stdlib Require Import ZArith QArith Lia Lqa SpecFloat.
From stdpp Require Import base option list gmap strings relations pretty.

Local Open Scope string_scope.
Local Open Scope Z_scope.

(** ** Numbers *)

Inductive num : Type :=
| Fin (z : Z)
| PInf
| NInf
| NaN.

#[global] Instance num_eq_dec : EqDecision num.
Proof. solve_decision. Defined.

(** Truthiness of a number in a boolean context: [0] and [NaN] are falsy. *)
Definition truthy (x : num) : bool :=
  match x with
  | Fin z => negb (z =? 0)
  | PInf | NInf => true
  | NaN => false
  end.

(** [x + y]. *)
Definition num_add (x y : num) : num :=
  match x, y with
  | NaN, _ | _, NaN => NaN
  | Fin a, Fin b => Fin (a + b)
  | PInf, NInf | NInf, PInf => NaN
  | PInf, _ | _, PInf => PInf
  | NInf, _ | _, NInf => NInf
  end.

(** The infinity with the sign of [s]; [s] is never zero where this is used. *)
Definition inf_of_sign (s : Z) : num := if 0 <? s then PInf else NInf.

Definition sign_of (x : num) : Z :=
  match x with
  | Fin z => Z.sgn z
  | PInf => 1
  | NInf => -1
  | NaN => 0
  end.

(** [x * y]. *)
Definition num_mul (x y : num) : num :=
  match x, y with
  | NaN, _ | _, NaN => NaN
  | Fin a, Fin b => Fin (a * b)
  | _, _ =>
      if sign_of x * sign_of y =? 0 then NaN
      else inf_of_sign (sign_of x * sign_of y)
  end.

(** The least integer not below the rational [a / o], for [o <> 0]. *)
Definition cdiv (a o : Z) : Z := - ((- a) / o).

(** [Math.ceil(x / y)].  The divisor is the [output] property read from a
    recipe object: an integer, or [None] when the property is missing
    ([undefined]; any number divided by [undefined] is [NaN]). *)
Definition ceil_div (x : num) (y : option Z) : num :=
  match y with
  | None => NaN
  | Some o =>
      match x with
      | NaN => NaN
      | Fin a =>
          if o =? 0 then (if a =? 0 then NaN else inf_of_sign a)
          else Fin (cdiv a o)
      | PInf | NInf => if o =? 0 then x else inf_of_sign (sign_of x * o)
      end
  end.

(** [(v || 0)] for a property read [v] that may be [undefined]. *)
Definition or_zero (v : option num) : num :=
  match v with
  | Some x => if truthy x then x else Fin 0
  | None => Fin 0
  end.

(** ** Objects *)

(** A recipe object: its own enumerable properties in [for ... in] order,
    each holding an integer quantity. *)
Abbreviation Recipe := (list (string * Z)).

(** [recipe[name]], [None] for [undefined]. *)
Fixpoint prop (r : Recipe) (name : string) : option Z :=
  match r with
  | [] => None
  | (k, v) :: r' => if decide (k = name) then Some v else prop r' name
  end.

(** The two accumulators of one call of [calculateMaterials]. *)
Record state : Type := State {
  materialsNeeded : gmap string num;
  craftsNeeded : gmap string num
}.

(** [obj[key] = (obj[key] || 0) + x]. *)
Definition accumulate (obj : gmap string num) (key : string) (x : num)
  : gmap string num :=
  <[key := num_add (or_zero (obj !! key)) x]> obj.

(** ** The resolver *)

(** The [for (const ingredientName in recipe)] loop, with the body abstracted:
    the body is skipped on the [output] property and may run out of fuel. *)
Fixpoint for_in (body : string → Z → state → option state)
    (r : Recipe) (st : state) : option state :=
  match r with
  | [] => Some st
  | (ingredientName, ingredientAmountPerCraft) :: r' =>
      if decide (ingredientName = "output") then for_in body r' st
      else
        match body ingredientName ingredientAmountPerCraft st with
        | Some st' => for_in body r' st'
        | None => None
        end
  end.

Fixpoint processRecipe (fuel : nat) (recipes : gmap string Recipe)
    (currentItemName : string) (requiredAmount : num) (st : state)
  : option state :=
  match fuel with
  | O => None
  | S fuel' =>
      match recipes !! currentItemName with
      | None =>
          Some (State
                  (accumulate (materialsNeeded st) currentItemName requiredAmount)
                  (craftsNeeded st))
      | Some recipe =>
          let itemsPerCraft := prop recipe "output" in
          let numCraftsForThisRecipe := ceil_div requiredAmount itemsPerCraft in
          let st1 :=
            State (materialsNeeded st)
                  (accumulate (craftsNeeded st) currentItemName
                              numCraftsForThisRecipe) in
          for_in
            (λ ingredientName ingredientAmountPerCraft,
               let totalIngredientRequired :=
                 num_mul (Fin ingredientAmountPerCraft) numCraftsForThisRecipe in
               processRecipe fuel' recipes ingredientName totalIngredientRequired)
            recipe st1
      end
  end.

Definition calculateMaterials (fuel : nat) (recipes : gmap string Recipe)
    (targetRecipeName : string) (countToCraft : num) : option state :=
  processRecipe fuel recipes targetRecipeName countToCraft (State ∅ ∅).

(** The recipe table of the example usage. *)
Definition recipes : gmap string Recipe :=
  {[ "ironBar" := [("ironOre", 25); ("coal", 25); ("output", 6)];
     "nails" := [("ironBar", 1); ("coal", 1); ("output", 6)];
     "copperBar" := [("copperOre", 5); ("coal", 2); ("output", 2)];
     "transferBoxes" :=
       [("copperBar", 1); ("nails", 5); ("softwood", 2);
        ("output", 1)] ]}.

(** ** The record of calls (ghost)

    [processRecipe] returns nothing; what it does is described by the
    invocations it makes.  The instrumented copy below is the same function
    that in addition returns the tree of its invocations: a node carries the
    two arguments of one invocation and the invocations its loop made. *)

#[local] Set Warnings "-register-all".
Inductive call : Type :=
| Call (item : string) (amount : num) (sub : list call).

Definition call_item (c : call) : string := match c with Call i _ _ => i end.
Definition call_amount (c : call) : num := match c with Call _ a _ => a end.
Definition call_sub (c : call) : list call := match c with Call _ _ l => l end.

Fixpoint for_in_calls (body : string → Z → state → option (state * call))
    (r : Recipe) (st : state) : option (state * list call) :=
  match r with
  | [] => Some (st, [])
  | (ingredientName, ingredientAmountPerCraft) :: r' =>
      if decide (ingredientName = "output") then for_in_calls body r' st
      else
        match body ingredientName ingredientAmountPerCraft st with
        | Some (st', c) =>
            match for_in_calls body r' st' with
            | Some (st'', cs) => Some (st'', c :: cs)
            | None => None
            end
        | None => None
        end
  end.

Fixpoint processRecipe_calls (fuel : nat) (recipes : gmap string Recipe)
    (currentItemName : string) (requiredAmount : num) (st : state)
  : option (state * call) :=
  match fuel with
  | O => None
  | S fuel' =>
      match recipes !! currentItemName with
      | None =>
          Some (State
                  (accumulate (materialsNeeded st) currentItemName requiredAmount)
                  (craftsNeeded st),
                Call currentItemName requiredAmount [])
      | Some recipe =>
          let itemsPerCraft := prop recipe "output" in
          let numCraftsForThisRecipe := ceil_div requiredAmount itemsPerCraft in
          let st1 :=
            State (materialsNeeded st)
                  (accumulate (craftsNeeded st) currentItemName
                              numCraftsForThisRecipe) in
          match
            for_in_calls
              (λ ingredientName ingredientAmountPerCraft,
                 let totalIngredientRequired :=
                   num_mul (Fin ingredientAmountPerCraft) numCraftsForThisRecipe in
                 processRecipe_calls fuel' recipes ingredientName
                                     totalIngredientRequired)
              recipe st1
          with
          | Some (st', cs) => Some (st', Call currentItemName requiredAmount cs)
          | None => None
          end
      end
  end.

(** The invocations of one run of [calculateMaterials], as a tree. *)
Definition call_tree (fuel : nat) (recipes : gmap string Recipe)
    (targetRecipeName : string) (countToCraft : num) : option call :=
  snd <$> processRecipe_calls fuel recipes targetRecipeName countToCraft
            (State ∅ ∅).

(** All the invocations of a tree, in the order they are made. *)
Fixpoint nodes (c : call) : list call :=
  match c with
  | Call _ _ sub => c :: concat (nodes <$> sub)
  end.

(** The amounts a run demanded of [name], one per invocation, in order. *)
Definition demands (name : string) (c : call) : list num :=
  call_amount <$> filter (λ n, call_item n = name) (nodes c).

(** What one invocation does to the accumulators before it loops. *)
Definition visit (recipes : gmap string Recipe) (st : state) (c : call)
  : state :=
  match recipes !! call_item c with
  | None =>
      State (accumulate (materialsNeeded st) (call_item c) (call_amount c))
            (craftsNeeded st)
  | Some recipe =>
      State (materialsNeeded st)
            (accumulate (craftsNeeded st) (call_item c)
                        (ceil_div (call_amount c) (prop recipe "output")))
  end.

Definition replay (recipes : gmap string Recipe) (cs : list call)
    (st : state) : state :=
  foldl (visit recipes) st cs.

(** The properties of a recipe object on which the loop runs its body. *)
Definition ingredients (rec : Recipe) : Recipe :=
  filter (λ p, p.1 ≠ "output") rec.

(** The two arguments of an invocation. *)
Definition label (c : call) : string * num := (call_item c, call_amount c).

(** The value of a property after a series of [obj[key] = (obj[key] || 0) + x]. *)
Definition acc_all (v : option num) (xs : list num) : option num :=
  foldl (λ v x, Some (num_add (or_zero v) x)) v xs.


(** ** Recipe tables *)

(** [n] is an ingredient of the recipe of [k]: the loop of [processRecipe k]
    calls [processRecipe n]. *)
Definition ingredient (recipes : gmap string Recipe) (k n : string) : Prop :=
  ∃ rec q, recipes !! k = Some rec ∧ (n, q) ∈ rec ∧ n ≠ "output".

(** No item is, directly or indirectly, its own ingredient. *)
Definition acyclic (recipes : gmap string Recipe) : Prop :=
  ∀ k, ¬ tc (ingredient recipes) k k.

(** An ingredient chain: each item is an ingredient of the one before it. *)
Fixpoint chain (recipes : gmap string Recipe) (l : list string) : Prop :=
  match l with
  | [] => True
  | k :: l' =>
      match l' with
      | [] => True
      | n :: _ => ingredient recipes k n ∧ chain recipes l'
      end
  end.

(** A rank that decreases along every ingredient edge is a cheap
    certificate of acyclicity for a concrete table. *)
Definition ranked (rank : string → nat) (recipes : gmap string Recipe) : Prop :=
  map_Forall
    (λ k rec, Forall (λ p : string * Z, p.1 = "output" ∨ (rank p.1 < rank k)%nat) rec)
    recipes.

Definition output_positive (rec : Recipe) : Prop :=
  match prop rec "output" with
  | Some o => 0 < o
  | None => False
  end.

(** Every recipe has an [output] property, and it is positive. *)
Definition positive_outputs (recipes : gmap string Recipe) : Prop :=
  map_Forall (λ _ rec, output_positive rec) recipes.

(** No recipe asks for a negative quantity of an ingredient. *)
Definition nonneg_quantities (recipes : gmap string Recipe) : Prop :=
  map_Forall (λ _ rec, Forall (λ p : string * Z, 0 ≤ p.2) (ingredients rec))
             recipes.

#[global] Instance output_positive_dec rec : Decision (output_positive rec).
Proof. unfold output_positive. destruct (prop rec "output"); apply _. Defined.

#[global] Instance ranked_dec rank R : Decision (ranked rank R).
Proof. unfold ranked. apply _. Defined.

#[global] Instance positive_outputs_dec R : Decision (positive_outputs R).
Proof. unfold positive_outputs. apply _. Defined.

#[global] Instance nonneg_quantities_dec R : Decision (nonneg_quantities R).
Proof. unfold nonneg_quantities. apply _. Defined.




(** Ranks for the example tables. *)
Definition rank_of (name : string) : nat :=
  if decide (name = "transferBoxes") then 3
  else if decide (name = "frame") then 3
  else if decide (name = "nails") then 2
  else if decide (name = "panel") then 2
  else if decide (name = "ironBar") then 1
  else if decide (name = "copperBar") then 1
  else if decide (name = "plate") then 1
  else if decide (name = "kit") then 1
  else 0.

(** ** The same program over a store of shared objects

    [recipes] is an object owned by the caller and shared with the resolver
    by reference; the two accumulators are objects the resolver creates.
    The store-level copy of the program makes the sharing explicit: objects
    live in a heap, the program holds references, and every property write
    goes through a reference.  It is used to state what the resolver leaves
    untouched, and is related to the functional embedding above. *)
Module Store.

Definition loc : Type := positive.

(** The shapes of object the program handles: the recipe table (names to
    references to recipe objects), a recipe object, an accumulator, and
    the object [{materials: ..., crafts: ...}] that is returned. *)
Inductive object : Type :=
| Table (entries : gmap string loc)
| RecipeObj (props : Recipe)
| Totals (entries : gmap string num)
| Result (materials crafts : loc).

Abbreviation heap := (gmap loc object).

Definition read_table (h : heap) (l : loc) : option (gmap string loc) :=
  match h !! l with Some (Table t) => Some t | _ => None end.

Definition read_recipe (h : heap) (l : loc) : option Recipe :=
  match h !! l with Some (RecipeObj ps) => Some ps | _ => None end.

Definition read_totals (h : heap) (l : loc) : option (gmap string num) :=
  match h !! l with Some (Totals m) => Some m | _ => None end.

(** [obj[key] = (obj[key] || 0) + x] through the reference [l]. *)
Definition add_to (h : heap) (l : loc) (key : string) (x : num)
  : option heap :=
  m ← read_totals h l; Some (<[l := Totals (accumulate m key x)]> h).

(** [{}]: a new object at a location the heap does not use yet. *)
Definition alloc (h : heap) (o : object) : loc * heap :=
  let l := fresh (dom h) in (l, <[l := o]> h).

(** The loop over the property names of a recipe object. *)
Fixpoint for_in (body : string → heap → option heap)
    (names : list string) (h : heap) : option heap :=
  match names with
  | [] => Some h
  | ingredientName :: names' =>
      if decide (ingredientName = "output") then for_in body names' h
      else
        match body ingredientName h with
        | Some h' => for_in body names' h'
        | None => None
        end
  end.

(** [None] stands for a recursion deeper than the fuel, and for an object
    of the wrong shape behind a reference. *)
Fixpoint processRecipe (fuel : nat)
    (recipes materialsNeeded craftsNeeded : loc)
    (currentItemName : string) (requiredAmount : num) (h : heap)
  : option heap :=
  match fuel with
  | O => None
  | S fuel' =>
      table ← read_table h recipes;
      match table !! currentItemName with
      | None => add_to h materialsNeeded currentItemName requiredAmount
      | Some recipe =>
          props ← read_recipe h recipe;
          let itemsPerCraft := prop props "output" in
          let numCraftsForThisRecipe :=
            ceil_div requiredAmount itemsPerCraft in
          h1 ← add_to h craftsNeeded currentItemName numCraftsForThisRecipe;
          for_in
            (λ ingredientName h',
               ingredientAmountPerCraft ←
                 read_recipe h' recipe ≫= (λ ps, prop ps ingredientName);
               let totalIngredientRequired :=
                 num_mul (Fin ingredientAmountPerCraft)
                         numCraftsForThisRecipe in
               processRecipe fuel' recipes materialsNeeded craftsNeeded
                             ingredientName totalIngredientRequired h')
            (props.*1) h1
      end
  end.

(** The call creates the two accumulators, fills them, and returns a
    reference to a new object that refers to both. *)
Definition calculateMaterials (fuel : nat) (recipes : loc)
    (targetRecipeName : string) (countToCraft : num) (h : heap)
  : option (loc * heap) :=
  let '(materialsNeeded, h1) := alloc h (Totals ∅) in
  let '(craftsNeeded, h2) := alloc h1 (Totals ∅) in
  h3 ← processRecipe fuel recipes materialsNeeded craftsNeeded
                     targetRecipeName countToCraft h2;
  Some (alloc h3 (Result materialsNeeded craftsNeeded)).

(** The heap holds the table [R] behind [recipes]: every entry refers to
    a recipe object with the properties [R] gives it, each property
    name occurring once. *)
Definition holds (h : heap) (recipes : loc) (R : gmap string Recipe)
  : Prop :=
  ∃ table,
    h !! recipes = Some (Table table)
    ∧ ∀ name,
        match table !! name with
        | Some l =>
            ∃ props, h !! l = Some (RecipeObj props)
                     ∧ R !! name = Some props ∧ NoDup (props.*1)
        | None => R !! name = None
        end.

(** The accumulators of a functional state sit behind [m] and [c]. *)
Definition tied (m c : loc) (h : heap) (st : state) : Prop :=
  h !! m = Some (Totals (materialsNeeded st))
  ∧ h !! c = Some (Totals (craftsNeeded st))
  ∧ m ≠ c.

(** The heap with the two accumulators replaced by those of [st]. *)
Definition upd (m c : loc) (h : heap) (st : state) : heap :=
  <[c := Totals (craftsNeeded st)]> (<[m := Totals (materialsNeeded st)]> h).

(** Nothing but the objects behind [m] and [c] differs, and no object
    appeared or disappeared. *)
Definition frame (m c : loc) (h h' : heap) : Prop :=
  dom h' = dom h ∧ ∀ l, l ≠ m → l ≠ c → h' !! l = h !! l.

(** The example table laid out in a heap. *)
Definition example_heap : heap :=
  {[ 1%positive :=
       Table {[ "ironBar" := 2%positive; "nails" := 3%positive;
                "copperBar" := 4%positive; "transferBoxes" := 5%positive ]};
     2%positive := RecipeObj [("ironOre", 25); ("coal", 25); ("output", 6)];
     3%positive := RecipeObj [("ironBar", 1); ("coal", 1); ("output", 6)];
     4%positive := RecipeObj [("copperOre", 5); ("coal", 2); ("output", 2)];
     5%positive :=
       RecipeObj [("copperBar", 1); ("nails", 5); ("softwood", 2);
                  ("output", 1)] ]}.

End Store.

(** ** The single-level calculator [craft]

    The second script computes, for one item and one count and without
    descending into sub-recipes, the number of crafts and the amount of
    each direct ingredient, and prints them.  Its body is embedded as a
    function of the table and of the values its first two statements give
    to [item] and [count]; the script itself calls it once, on [ironBar]
    and [ironBars].

    The amount of an ingredient is [Math.ceil(count * (perBatch / output))]:
    the quotient is rounded to a double before it is multiplied, so this
    expression is evaluated in binary64 arithmetic (precision 53, exponent
    bound 1024), not on the integers. *)

Definition ironBars : Z := 2000.
Definition transferBoxes : Z := 2000.

(** A number as a double. *)
Definition to_double (x : num) : spec_float :=
  match x with
  | Fin z => binary_normalize 53 1024 z 0 false
  | PInf => S754_infinity false
  | NInf => S754_infinity true
  | NaN => S754_nan
  end.

(** [Math.ceil] of a double. *)
Definition ceil_double (x : spec_float) : num :=
  match x with
  | S754_zero _ => Fin 0
  | S754_infinity s => if s then NInf else PInf
  | S754_nan => NaN
  | S754_finite s m e =>
      let v := if s then Z.neg m else Z.pos m in
      if 0 <=? e then Fin (v * 2 ^ e) else Fin (cdiv v (2 ^ (- e)))
  end.

(** [Math.ceil(count * (perBatch / output))], [output] being [None] when
    the recipe has no such property. *)
Definition scaled (count : num) (perBatch : Z) (output : option Z) : num :=
  ceil_double
    (SFmul 53 1024 (to_double count)
       (SFdiv 53 1024 (to_double (Fin perBatch))
          (match output with
           | Some o => to_double (Fin o)
           | None => S754_nan
           end))).

(** What [console.log] received: a recipe object (or [undefined]), or a
    line of text. *)
Inductive event : Type :=
| LogObject (recipe : option Recipe)
| LogText (line : string).

(** How a call ends: it returns, or a property is read on [undefined]. *)
Inductive completion : Type :=
| Returned
| Thrown.

(** A number inside a template literal; decimal digits for an integer
    (below 10^21 in magnitude). *)
Definition show (x : num) : string :=
  match x with
  | Fin z => pretty z
  | PInf => "Infinity"
  | NInf => "-Infinity"
  | NaN => "NaN"
  end.


(** [x === 0]. *)
Definition strict_zero (x : num) : bool :=
  match x with Fin z => z =? 0 | _ => false end.

(** [x <= 0]. *)
Definition le_zero (x : num) : bool :=
  match x with Fin z => z <=? 0 | NInf => true | PInf | NaN => false end.

(** [recipe.output] on a value that may be [undefined]: the outer [None]
    is the [TypeError], the inner one a missing property. *)
Definition read_output (recipe : option Recipe) : option (option Z) :=
  (λ props, prop props "output") <$> recipe.

(** [!recipe]. *)
Definition falsy (recipe : option Recipe) : bool :=
  match recipe with Some _ => false | None => true end.

(** The properties a [for ... in] loop visits, other than [output]. *)
Definition materials_of (recipe : option Recipe) : Recipe :=
  match recipe with Some props => ingredients props | None => [] end.

(** [output * totalCrafts]. *)
Definition times_output (output : option Z) (totalCrafts : num) : num :=
  match output with
  | Some o => num_mul (Fin o) totalCrafts
  | None => NaN
  end.

Definition craft (recipes : gmap string Recipe) (item : string) (count : num)
  : list event * completion :=
  let recipe := recipes !! item in
  let console := [LogObject recipe] in
  match read_output recipe with
  | None => (console, Thrown)
  | Some output =>
      if strict_zero count then
        (console ++ [LogText "No items to craft."], Returned)%list
      else if falsy recipe then
        (console ++ [LogText "Recipe does not exist."], Returned)%list
      else
        let requiredMaterials :=
          (λ p : string * Z, (p.1, scaled count p.2 output))
            <$> materials_of recipe in
        let totalCrafts := ceil_div count output in
        if le_zero totalCrafts then
          (console ++ [LogText "Not enough items to craft."], Returned)%list
        else
          (console
             ++ [LogText ("Crafting " +:+ show totalCrafts +:+ " times for "
                            +:+ item +:+ ".");
                 LogText "Required materials:"]
             ++ ((λ material : string * num,
                    LogText (show material.2 +:+ " " +:+ material.1))
                   <$> requiredMaterials)
             ++ [LogText ("Output: " +:+ show (times_output output totalCrafts)
                            +:+ " " +:+ item)],
           Returned)%list
  end.

(** The call [craft();] of the script. *)
Definition craft_call : list event * completion :=
  craft recipes "ironBar" (Fin ironBars).

(** A recipe on which the two calculators differ. *)
Definition thirds : gmap string Recipe :=
  {[ "rod" := [("bar", 7); ("output", 3)] ]}.

(** ** Reachability in a recipe table *)

(** [x] is the item itself or one of its direct or indirect ingredients. *)
Definition reaches (recipes : gmap string Recipe) (item x : string) : Prop :=
  rtc (ingredient recipes) item x.

(** Some item that [item] reaches is its own (direct or indirect)
    ingredient. *)
Definition reaches_cycle (recipes : gmap string Recipe) (item : string)
  : Prop :=
  ∃ x, reaches recipes item x ∧ tc (ingredient recipes) x x.

(** A table with a cycle: a hinge needs a pin and a pin needs a hinge. *)
Definition looped : gmap string Recipe :=
  {[ "gate" := [("hinge", 2); ("output", 1)];
     "hinge" := [("pin", 1); ("output", 1)];
     "pin" := [("hinge", 1); ("output", 4)] ]}.

(** A table with a recipe whose [output] is 0. *)
Definition voided : gmap string Recipe :=
  {[ "glass" := [("sand", 3); ("output", 0)] ]}.



(** The same table up to the order in which each recipe lists its
    properties. *)
Definition same_recipes (R R' : gmap string Recipe) : Prop :=
  ∀ k, option_Forall2 (≡ₚ) (R !! k) (R' !! k).

(** No recipe lists a property twice (as in any object). *)
Definition unique_names (recipes : gmap string Recipe) : Prop :=
  map_Forall (λ _ rec, NoDup rec.*1) recipes.

#[global] Instance unique_names_dec R : Decision (unique_names R).
Proof. unfold unique_names. apply _. Defined.



(** A table with a recipe whose [output] is 0 and which asks for none of
    one of its ingredients, and the same table with the two ingredients
    of that recipe listed the other way round. *)
Definition hollow : gmap string Recipe :=
  {[ "frame" := [("panel", 0); ("sand", 1); ("output", 0)];
     "panel" := [("sand", 1); ("output", 1)] ]}.

Definition hollow_reordered : gmap string Recipe :=
  {[ "frame" := [("sand", 1); ("panel", 0); ("output", 0)];
     "panel" := [("sand", 1); ("output", 1)] ]}.

(** ** Erasure: the instrumented copy computes the same accumulators *)

Lemma for_in_erase body body' r st :
  (∀ n q s, body n q s = fst <$> body' n q s) →
  for_in body r st = fst <$> for_in_calls body' r st.
Proof.
  intros Hb. revert st. induction r as [|[n q] r IH]; intros st; simpl; [done|].
  case_decide; [apply IH|].
  rewrite Hb. destruct (body' n q st) as [[st' c]|]; simpl; [|done].
  rewrite IH. by destruct (for_in_calls body' r st') as [[??]|].
Qed.

Lemma processRecipe_erase fuel R item a st :
  processRecipe fuel R item a st = fst <$> processRecipe_calls fuel R item a st.
Proof.
  revert item a st. induction fuel as [|fuel IH]; intros item a st; simpl; [done|].
  destruct (R !! item) as [rec|]; [|done].
  erewrite for_in_erase; [|intros; apply IH].
  by destruct (for_in_calls _ rec _) as [[??]|].
Qed.

(** ** More fuel changes nothing *)

Lemma for_in_calls_mono body body' r st res :
  (∀ n q s x, body n q s = Some x → body' n q s = Some x) →
  for_in_calls body r st = Some res →
  for_in_calls body' r st = Some res.
Proof.
  intros Hb. revert st res.
  induction r as [|[n q] r IH]; intros st res; simpl; [done|].
  case_decide; [apply IH|].
  destruct (body n q st) as [[st' c]|] eqn:E; [|done].
  rewrite (Hb _ _ _ _ E).
  destruct (for_in_calls body r st') as [[st'' cs]|] eqn:E'; [|done].
  by rewrite (IH _ _ E').
Qed.

Lemma processRecipe_calls_mono fuel fuel' R item a st res :
  (fuel ≤ fuel')%nat →
  processRecipe_calls fuel R item a st = Some res →
  processRecipe_calls fuel' R item a st = Some res.
Proof.
  revert fuel' item a st res.
  induction fuel as [|fuel IH]; intros fuel' item a st res Hle; simpl; [done|].
  destruct fuel' as [|fuel']; [lia|]. simpl.
  destruct (R !! item) as [rec|]; [|done].
  destruct (for_in_calls _ rec _) as [[st' cs]|] eqn:E; [|done].
  intros <-.
  eapply for_in_calls_mono in E as ->; [done|].
  intros n q s x. apply IH. lia.
Qed.

(** ** The accumulators are the replay of the invocations *)

Lemma replay_app R cs1 cs2 st :
  replay R (cs1 ++ cs2) st = replay R cs2 (replay R cs1 st).
Proof. apply foldl_app. Qed.

Lemma for_in_calls_replay R body r st st' cs :
  (∀ n q s s' c, body n q s = Some (s', c) → s' = replay R (nodes c) s) →
  for_in_calls body r st = Some (st', cs) →
  st' = replay R (concat (nodes <$> cs)) st.
Proof.
  intros Hb. revert st st' cs.
  induction r as [|[n q] r IH]; intros st st' cs; simpl.
  { intros [= <- <-]. reflexivity. }
  case_decide; [apply IH|].
  destruct (body n q st) as [[s1 c]|] eqn:E; [|done].
  destruct (for_in_calls body r s1) as [[s2 cs']|] eqn:E'; [|done].
  intros [= <- <-]. simpl. rewrite replay_app.
  rewrite <- (Hb _ _ _ _ _ E). by apply IH.
Qed.

Lemma processRecipe_calls_root fuel R item a st st' c :
  processRecipe_calls fuel R item a st = Some (st', c) →
  call_item c = item ∧ call_amount c = a.
Proof.
  destruct fuel as [|fuel]; simpl; [done|].
  destruct (R !! item) as [rec|].
  - destruct (for_in_calls _ rec _) as [[??]|]; [|done]. by intros [= <- <-].
  - by intros [= <- <-].
Qed.

Lemma processRecipe_calls_replay fuel R item a st st' c :
  processRecipe_calls fuel R item a st = Some (st', c) →
  st' = replay R (nodes c) st.
Proof.
  revert item a st st' c.
  induction fuel as [|fuel IH]; intros item a st st' c; simpl; [done|].
  destruct (R !! item) as [rec|] eqn:Hrec.
  - destruct (for_in_calls _ rec _) as [[s cs]|] eqn:E; [|done].
    intros [= <- <-]. simpl.
    apply (for_in_calls_replay R) in E; [|intros; by eapply IH].
    rewrite E. unfold replay at 2. simpl. unfold visit at 2. simpl.
    by rewrite Hrec.
  - intros [= <- <-]. simpl. unfold replay. simpl. unfold visit. simpl.
    by rewrite Hrec.
Qed.

(** Both views of one run come from the same instrumented run. *)
Lemma run_inv fuel R t q st :
  calculateMaterials fuel R t q = Some st →
  ∃ c, processRecipe_calls fuel R t q (State ∅ ∅) = Some (st, c)
       ∧ call_tree fuel R t q = Some c.
Proof.
  unfold calculateMaterials, call_tree. rewrite processRecipe_erase.
  destruct (processRecipe_calls fuel R t q _) as [[s c]|]; [|done].
  intros [= <-]. by exists c.
Qed.

Lemma tree_inv fuel R t q c :
  call_tree fuel R t q = Some c →
  ∃ st, processRecipe_calls fuel R t q (State ∅ ∅) = Some (st, c)
        ∧ calculateMaterials fuel R t q = Some st.
Proof.
  unfold calculateMaterials, call_tree. rewrite processRecipe_erase.
  destruct (processRecipe_calls fuel R t q _) as [[s c']|]; [|done].
  intros [= <-]. by exists s.
Qed.

(** ** Reading the accumulators after a replay *)



Lemma acc_all_cons v x xs :
  acc_all v (x :: xs) = acc_all (Some (num_add (or_zero v) x)) xs.
Proof. done. Qed.

Lemma visit_crafts_eq R st c rec :
  R !! call_item c = Some rec →
  craftsNeeded (visit R st c) !! call_item c
  = Some (num_add (or_zero (craftsNeeded st !! call_item c))
                  (ceil_div (call_amount c) (prop rec "output"))).
Proof.
  intros H. unfold visit. rewrite H. simpl. unfold accumulate.
  by rewrite lookup_insert_eq.
Qed.

Lemma visit_crafts_ne R st c r :
  call_item c ≠ r →
  craftsNeeded (visit R st c) !! r = craftsNeeded st !! r.
Proof.
  intros H. unfold visit. destruct (R !! call_item c); simpl; [|done].
  unfold accumulate. by rewrite lookup_insert_ne.
Qed.





Lemma crafts_replay R cs st r rec :
  R !! r = Some rec →
  craftsNeeded (replay R cs st) !! r
  = acc_all (craftsNeeded st !! r)
      ((λ c, ceil_div (call_amount c) (prop rec "output"))
         <$> filter (λ n, call_item n = r) cs).
Proof.
  intros Hr. revert st. induction cs as [|c cs IH]; intros st; [done|].
  change (replay R (c :: cs) st) with (replay R cs (visit R st c)).
  rewrite IH. destruct (decide (call_item c = r)) as [He|Hne].
  - rewrite filter_cons_True by done. rewrite fmap_cons, acc_all_cons.
    subst r. by rewrite (visit_crafts_eq _ _ _ rec).
  - rewrite filter_cons_False by done. by rewrite visit_crafts_ne.
Qed.




(** The two result maps of a run, read through its invocations. *)
Lemma run_crafts fuel R t q st c r rec :
  calculateMaterials fuel R t q = Some st →
  call_tree fuel R t q = Some c →
  R !! r = Some rec →
  craftsNeeded st !! r
  = acc_all None ((λ a, ceil_div a (prop rec "output")) <$> demands r c).
Proof.
  intros Hrun Htree Hr.
  destruct (run_inv _ _ _ _ _ Hrun) as (c' & Hc & Htree').
  assert (c' = c) as -> by congruence.
  rewrite (processRecipe_calls_replay _ _ _ _ _ _ _ Hc).
  rewrite (crafts_replay _ _ _ _ rec Hr). simpl. rewrite lookup_empty.
  unfold demands. by rewrite <- list_fmap_compose.
Qed.




(** ** Termination *)

Lemma for_in_calls_is_Some body (r : Recipe) st :
  (∀ n q s, (n, q) ∈ r → n ≠ "output" → is_Some (body n q s)) →
  is_Some (for_in_calls body r st).
Proof.
  revert st. induction r as [|[n q] r IH]; intros st Hb; simpl; [by eexists|].
  case_decide as Hn.
  - apply IH. intros n' q' s Hin. apply Hb. by right.
  - destruct (Hb n q st) as [[s c] ->]; [by left|done|].
    destruct (IH s) as [[s' cs] ->]; [|by eexists].
    intros n' q' s' Hin. apply Hb. by right.
Qed.

(** The depth of the recursion is at most the length of the longest
    ingredient chain that starts at the item. *)
Lemma terminates_within_chain d R item a st :
  (∀ l, chain R (item :: l) → (length (item :: l) ≤ d)%nat) →
  is_Some (processRecipe_calls d R item a st).
Proof.
  revert item a st. induction d as [|d IH]; intros item a st Hd.
  { specialize (Hd [] I). simpl in Hd. lia. }
  simpl. destruct (R !! item) as [rec|] eqn:Hrec; [|by eexists].
  match goal with |- is_Some (match ?x with _ => _ end) =>
    assert (is_Some x) as [[s cs] ->]; [|by eexists] end.
  apply for_in_calls_is_Some. intros n q s Hin Hn. apply IH.
  intros l Hl.
  assert (chain R (item :: n :: l)) as Hc.
  { split; [|done]. by exists rec, q. }
  specialize (Hd _ Hc). simpl in *. lia.
Qed.

Lemma chain_tc R k l n :
  chain R (k :: l) → n ∈ l → tc (ingredient R) k n.
Proof.
  revert k. induction l as [|x l IH]; intros k Hc Hin.
  { by apply elem_of_nil in Hin. }
  destruct Hc as [Hk Hc]. apply elem_of_cons in Hin as [->|Hin].
  - by apply tc_once.
  - eapply tc_l; [done|]. by apply IH.
Qed.

Lemma chain_tail R k l : chain R (k :: l) → chain R l.
Proof. destruct l as [|n l]; [done|]. by intros [_ ?]. Qed.


Lemma chain_keys R l :
  chain R l → NoDup l →
  ∃ X : gset string,
    X ⊆ dom R ∧ X ⊆ list_to_set l ∧ (length l ≤ S (size X))%nat.
Proof.
  induction l as [|k l IH]; intros Hc Hnd.
  { exists ∅. split_and!; [set_solver..|simpl; lia]. }
  destruct l as [|n l].
  { exists ∅. split_and!; [set_solver..|simpl; lia]. }
  destruct Hc as [(rec & q & Hk & _) Hc].
  apply NoDup_cons in Hnd as [Hk' Hnd].
  destruct (IH Hc Hnd) as (X & HX1 & HX2 & HX3).
  assert (k ∉ X) as HkX.
  { intros Hin. apply Hk'. apply HX2 in Hin. by apply elem_of_list_to_set in Hin. }
  exists ({[k]} ∪ X). split_and!.
  - apply union_subseteq. split; [|done].
    apply singleton_subseteq_l, elem_of_dom. by eexists.
  - set_solver.
  - rewrite size_union by set_solver. rewrite size_singleton.
    simpl in *. lia.
Qed.



(** A rank certifies acyclicity. *)
Lemma ranked_ingredient rank R k n :
  ranked rank R → ingredient R k n → (rank n < rank k)%nat.
Proof.
  intros Hr (rec & q & Hk & Hin & Hn).
  specialize (Hr _ _ Hk). simpl in Hr.
  rewrite Forall_forall in Hr. destruct (Hr _ Hin) as [?|?]; done.
Qed.

Lemma ranked_acyclic rank R : ranked rank R → acyclic R.
Proof.
  intros Hr k Hk.
  assert (∀ a b, tc (ingredient R) a b → (rank b < rank a)%nat) as Hlt.
  { induction 1 as [a b H|a b c H _ IH].
    - by eapply ranked_ingredient.
    - apply (ranked_ingredient _ _ _ _ Hr) in H. lia. }
  specialize (Hlt _ _ Hk). lia.
Qed.

(** ** The invocations made by one loop *)

Lemma for_in_calls_children body (r : Recipe) st st' cs :
  for_in_calls body r st = Some (st', cs) →
  Forall2 (λ p c, ∃ s s', body p.1 p.2 s = Some (s', c)) (ingredients r) cs.
Proof.
  revert st st' cs. induction r as [|[n q] r IH]; intros st st' cs.
  { intros [= <- <-]. constructor. }
  unfold ingredients. rewrite filter_cons. simpl.
  destruct (decide (n = "output")) as [Hn|Hn].
  - rewrite decide_False by tauto. apply IH.
  - rewrite decide_True by done.
    destruct (body n q st) as [[s1 c]|] eqn:E; [|done].
    destruct (for_in_calls body r s1) as [[s2 cs']|] eqn:E'; [|done].
    intros [= <- <-]. constructor; [by exists st, s1|]. by eapply IH.
Qed.

Lemma elem_of_ingredients (rec : Recipe) n q :
  (n, q) ∈ ingredients rec ↔ (n, q) ∈ rec ∧ n ≠ "output".
Proof. unfold ingredients. rewrite list_elem_of_filter. simpl. tauto. Qed.

Lemma processRecipe_calls_sub fuel R item a st st' c :
  processRecipe_calls fuel R item a st = Some (st', c) →
  match R !! item with
  | None => call_sub c = []
  | Some rec =>
      ∃ fuel', fuel = S fuel' ∧
      Forall2
        (λ p c', ∃ s s',
           processRecipe_calls fuel' R p.1
             (num_mul (Fin p.2) (ceil_div a (prop rec "output"))) s
           = Some (s', c'))
        (ingredients rec) (call_sub c)
  end.
Proof.
  destruct fuel as [|fuel]; simpl; [done|].
  destruct (R !! item) as [rec|].
  - destruct (for_in_calls _ rec _) as [[s cs]|] eqn:E; [|done].
    intros [= <- <-]. exists fuel. split; [done|].
    by apply for_in_calls_children in E.
  - by intros [= <- <-].
Qed.

(** A property of single invocations that holds at the root of every
    (sub)run holds at every node of the tree. *)
Lemma nodes_Forall (P : call → Prop) R :
  (∀ fuel item a st st' c,
     processRecipe_calls fuel R item a st = Some (st', c) → P c) →
  ∀ fuel item a st st' c,
    processRecipe_calls fuel R item a st = Some (st', c) →
    Forall P (nodes c).
Proof.
  intros HP fuel. induction fuel as [|fuel IH]; intros item a st st' c Hc.
  { done. }
  pose proof (HP _ _ _ _ _ _ Hc) as Hroot.
  pose proof (processRecipe_calls_sub _ _ _ _ _ _ _ Hc) as Hsub.
  destruct c as [i x sub]. simpl in *. constructor; [done|].
  apply Forall_concat, Forall_fmap.
  destruct (R !! item) as [rec|]; [|subst sub; constructor].
  destruct Hsub as (fuel' & [= <-] & Hsub).
  clear Hc Hroot. induction Hsub as [|p c' ps cs (s & s' & Hc') _ IH']; constructor; [|done].
  simpl. by eapply IH.
Qed.

(** ** Ceiling division *)

Lemma cdiv_spec a o : 0 < o → o * (cdiv a o - 1) < a ≤ o * cdiv a o.
Proof.
  intros Ho. unfold cdiv.
  pose proof (Z.div_mod (- a) o ltac:(lia)) as Hdm.
  pose proof (Z.mod_pos_bound (- a) o Ho) as Hm.
  nia.
Qed.



Lemma ceil_div_fin a o : o ≠ 0 → ceil_div (Fin a) (Some o) = Fin (cdiv a o).
Proof. intros Ho. simpl. by destruct (Z.eqb_spec o 0). Qed.



Lemma calculateMaterials_mono fuel fuel' R t q st :
  (fuel ≤ fuel')%nat →
  calculateMaterials fuel R t q = Some st →
  calculateMaterials fuel' R t q = Some st.
Proof.
  intros Hle Hrun. destruct (run_inv _ _ _ _ _ Hrun) as (c & Hc & _).
  unfold calculateMaterials. rewrite processRecipe_erase.
  by rewrite (processRecipe_calls_mono _ _ _ _ _ _ _ Hle Hc).
Qed.

(** ** Batch counts *)

Lemma acc_all_one x : acc_all None [x] = Some x.
Proof. by destruct x. Qed.






(** ** The example table *)

(** C3.  On the recipe table of the example usage: 10 iron bars, 25 nails
    and 5 transfer boxes resolve to the materials and crafts of the traces
    written next to the example calls, at any recursion budget of at least
    four frames. *)
Theorem example_results (extra : nat) :
  calculateMaterials (4 + extra) recipes "ironBar" (Fin 10)
  = Some (State {[ "ironOre" := Fin 50; "coal" := Fin 50 ]}
                {[ "ironBar" := Fin 2 ]})
  ∧ calculateMaterials (4 + extra) recipes "nails" (Fin 25)
    = Some (State {[ "ironOre" := Fin 25; "coal" := Fin 30 ]}
                  {[ "nails" := Fin 5; "ironBar" := Fin 1 ]})
  ∧ calculateMaterials (4 + extra) recipes "transferBoxes" (Fin 5)
    = Some (State {[ "copperOre" := Fin 15; "coal" := Fin 36;
                     "ironOre" := Fin 25; "softwood" := Fin 10 ]}
                  {[ "transferBoxes" := Fin 5; "copperBar" := Fin 3;
                     "nails" := Fin 5; "ironBar" := Fin 1 ]}).
Proof.
  split_and!;
    (apply (calculateMaterials_mono 4); [lia|]; vm_compute; reflexivity).
Qed.

(** ** Raw targets *)




(** ** Propagation of demands *)

(** C6.  In every run, every invocation on a craftable item with demand
    [a] calls [processRecipe] once for each property of the recipe other
    than [output], in order, with the demand
    [perBatch * Math.ceil(a / output)]. *)
Theorem propagated_demands fuel R t q c n rec :
  call_tree fuel R t q = Some c →
  n ∈ nodes c →
  R !! call_item n = Some rec →
  label <$> call_sub n
  = (λ p, (p.1, num_mul (Fin p.2)
                  (ceil_div (call_amount n) (prop rec "output"))))
      <$> ingredients rec.
Proof.
  intros Htree Hn Hrec.
  destruct (tree_inv _ _ _ _ _ Htree) as (st & Hc & _).
  pose (P := λ n : call, ∀ rec, R !! call_item n = Some rec →
     label <$> call_sub n
     = (λ p, (p.1, num_mul (Fin p.2)
                     (ceil_div (call_amount n) (prop rec "output"))))
         <$> ingredients rec).
  assert (Forall P (nodes c)) as HP.
  { eapply (nodes_Forall P R); [|exact Hc].
    clear. intros fuel item a st st' c Hc rec' Hrec'.
    destruct (processRecipe_calls_root _ _ _ _ _ _ _ Hc) as [Hi Ha].
    pose proof (processRecipe_calls_sub _ _ _ _ _ _ _ Hc) as Hsub.
    rewrite Hi in Hrec'. rewrite Hrec' in Hsub.
    destruct Hsub as (fuel' & -> & Hsub). rewrite Ha.
    induction Hsub as [|p c' ps cs (s & s' & Hc') _ IH]; [done|].
    rewrite !fmap_cons. f_equal; [|exact IH].
    destruct (processRecipe_calls_root _ _ _ _ _ _ _ Hc') as [Hi' Ha'].
    unfold label. by rewrite Hi', Ha'. }
  rewrite Forall_forall in HP. by apply HP.
Qed.

(** 25 nails make 5 batches, so 5 iron bars are demanded: not 25/6. *)
Lemma propagated_demands_witness :
  label <$> call_sub
    (Call "nails" (Fin 25)
       [Call "ironBar" (Fin 5)
          [Call "ironOre" (Fin 25) []; Call "coal" (Fin 25) []];
        Call "coal" (Fin 5) []])
  = [("ironBar", Fin (1 * cdiv 25 6)); ("coal", Fin (1 * cdiv 25 6))].
Proof.
  rewrite (propagated_demands 4 recipes "nails" (Fin 25)
             (Call "nails" (Fin 25)
                [Call "ironBar" (Fin 5)
                   [Call "ironOre" (Fin 25) []; Call "coal" (Fin 25) []];
                 Call "coal" (Fin 5) []])
             (Call "nails" (Fin 25)
                [Call "ironBar" (Fin 5)
                   [Call "ironOre" (Fin 25) []; Call "coal" (Fin 25) []];
                 Call "coal" (Fin 5) []])
             [("ironBar", 1); ("coal", 1); ("output", 6)]).
  - vm_compute. reflexivity.
  - vm_compute. reflexivity.
  - simpl. left.
  - vm_compute. reflexivity.
Defined.

(** ** Classification of keys *)



(** ** Runs on valid tables stay within the integers *)





Section valid_tables.
Context (R : gmap string Recipe) (P : Z → Prop).
Hypothesis outputs : positive_outputs R.
Hypothesis step :
  ∀ k rec o n q a,
    R !! k = Some rec → prop rec "output" = Some o → 0 < o →
    (n, q) ∈ ingredients rec → P a → P (q * cdiv a o).



End valid_tables.

(** ** Termination and the sign of the results *)






(** The example tables are well formed. *)
Lemma recipes_ranked : ranked rank_of recipes.
Proof. apply (bool_decide_unpack _). vm_compute. exact I. Qed.







(** ** A quantity of zero *)






(** ** Never an under-estimate *)






Section unrounded_bound.
Context (R : gmap string Recipe) (m : string).
Hypothesis raw : R !! m = None.
Hypothesis outputs : positive_outputs R.
Hypothesis quantities : nonneg_quantities R.

End unrounded_bound.




(** ** The store-level program: what it writes *)

Lemma add_to_frame_m m c h key x h' :
  Store.add_to h m key x = Some h' → Store.frame m c h h'.
Proof.
  unfold Store.add_to, Store.read_totals.
  destruct (h !! m) as [[| |tot|]|] eqn:Hm; simpl; try done.
  intros [= <-]. split.
  - rewrite dom_insert_L. apply elem_of_dom_2 in Hm. set_solver.
  - intros l Hl _. by rewrite lookup_insert_ne.
Qed.

Lemma add_to_frame_c m c h key x h' :
  Store.add_to h c key x = Some h' → Store.frame m c h h'.
Proof.
  unfold Store.add_to, Store.read_totals.
  destruct (h !! c) as [[| |tot|]|] eqn:Hc; simpl; try done.
  intros [= <-]. split.
  - rewrite dom_insert_L. apply elem_of_dom_2 in Hc. set_solver.
  - intros l _ Hl. by rewrite lookup_insert_ne.
Qed.

Lemma frame_refl m c h : Store.frame m c h h.
Proof. by split. Qed.

Lemma frame_trans m c h1 h2 h3 :
  Store.frame m c h1 h2 → Store.frame m c h2 h3 → Store.frame m c h1 h3.
Proof.
  intros [Hd1 Hl1] [Hd2 Hl2]. split; [congruence|].
  intros l Hm Hc. rewrite Hl2, Hl1; done.
Qed.

Lemma store_for_in_frame m c body names h h' :
  (∀ n h1 h2, body n h1 = Some h2 → Store.frame m c h1 h2) →
  Store.for_in body names h = Some h' →
  Store.frame m c h h'.
Proof.
  intros Hb. revert h. induction names as [|n names IH]; intros h; simpl.
  { intros [= <-]. apply frame_refl. }
  case_decide; [apply IH|].
  destruct (body n h) as [h1|] eqn:E; [|done].
  intros Hrest. eapply frame_trans; [by eapply Hb|by apply IH].
Qed.

Lemma store_processRecipe_frame fuel r m c item a h h' :
  Store.processRecipe fuel r m c item a h = Some h' →
  Store.frame m c h h'.
Proof.
  revert item a h h'. induction fuel as [|fuel IH]; intros item a h h'; [done|].
  simpl. destruct (Store.read_table h r) as [table|]; [|done]. simpl.
  destruct (table !! item) as [l|].
  - destruct (Store.read_recipe h l) as [props|]; [|done]. simpl.
    destruct (Store.add_to h c item _) as [h1|] eqn:Hadd; [|done]. simpl.
    intros Hloop. eapply frame_trans; [by eapply add_to_frame_c|].
    eapply store_for_in_frame; [|exact Hloop].
    intros n h2 h3. simpl.
    destruct (Store.read_recipe h2 l ≫= _) as [q|]; [|done]. simpl.
    apply IH.
  - apply add_to_frame_m.
Qed.

(** ** The store-level program computes what the functional one does *)

Lemma prop_NoDup (ps : Recipe) n q :
  NoDup (ps.*1) → (n, q) ∈ ps → prop ps n = Some q.
Proof.
  induction ps as [|[k v] ps IH]; intros Hnd Hin.
  { by apply elem_of_nil in Hin. }
  simpl in *. apply NoDup_cons in Hnd as [Hk Hnd].
  apply elem_of_cons in Hin as [[= -> ->]|Hin].
  - by rewrite decide_True.
  - rewrite decide_False; [by apply IH|].
    intros ->. apply Hk. apply list_elem_of_fmap. by exists (n, q).
Qed.

Ltac heap_cases m c :=
  let l := fresh "l" in
  apply map_eq; intros l;
  destruct (decide (l = c)) as [->|?];
  [|destruct (decide (l = m)) as [->|?]];
  repeat (rewrite lookup_insert_eq || rewrite lookup_insert_ne by done);
  done.

Lemma upd_upd m c h st1 st2 :
  Store.upd m c (Store.upd m c h st1) st2 = Store.upd m c h st2.
Proof. unfold Store.upd. heap_cases m c. Qed.

Lemma upd_id m c h st : Store.tied m c h st → Store.upd m c h st = h.
Proof.
  intros (Hm & Hc & _). unfold Store.upd.
  rewrite (insert_id h m) by done. by rewrite insert_id.
Qed.

Lemma tied_upd m c h st : m ≠ c → Store.tied m c (Store.upd m c h st) st.
Proof.
  intros Hne. unfold Store.tied, Store.upd. split_and!; [|by rewrite lookup_insert_eq|done].
  rewrite lookup_insert_ne by done. by rewrite lookup_insert_eq.
Qed.

Lemma upd_lookup_other m c h st0 st l o :
  Store.tied m c h st0 → h !! l = Some o → (∀ tot, o ≠ Store.Totals tot) →
  Store.upd m c h st !! l = Some o.
Proof.
  intros (Hm & Hc & _) Hl Ho. unfold Store.upd.
  rewrite !lookup_insert_ne; [done|..]; intros ->.
  - rewrite Hm in Hl. injection Hl as <-. by eapply Ho.
  - rewrite Hc in Hl. injection Hl as <-. by eapply Ho.
Qed.

Lemma holds_upd m c h st0 st r R :
  Store.holds h r R → Store.tied m c h st0 →
  Store.holds (Store.upd m c h st) r R.
Proof.
  intros (table & Hr & Htab) Htied. exists table. split.
  - by eapply upd_lookup_other.
  - intros name. specialize (Htab name). destruct (table !! name) as [l|]; [|done].
    destruct Htab as (props & Hl & HR & Hnd). exists props.
    split_and!; [|done..]. by eapply upd_lookup_other.
Qed.

Lemma add_to_upd_m m c h st key x :
  m ≠ c →
  Store.add_to (Store.upd m c h st) m key x
  = Some (Store.upd m c h
            (State (accumulate (materialsNeeded st) key x) (craftsNeeded st))).
Proof.
  intros Hne. unfold Store.add_to, Store.read_totals.
  destruct (tied_upd m c h st Hne) as (-> & _ & _). simpl. f_equal.
  unfold Store.upd. simpl. heap_cases m c.
Qed.

Lemma add_to_upd_c m c h st key x :
  m ≠ c →
  Store.add_to (Store.upd m c h st) c key x
  = Some (Store.upd m c h
            (State (materialsNeeded st) (accumulate (craftsNeeded st) key x))).
Proof.
  intros Hne. unfold Store.add_to, Store.read_totals.
  destruct (tied_upd m c h st Hne) as (_ & -> & _). simpl. f_equal.
  unfold Store.upd. simpl. heap_cases m c.
Qed.

Section store_refinement.
Context (R : gmap string Recipe) (r m c : Store.loc) (h0 : Store.heap)
        (st0 : state).
Hypothesis table : Store.holds h0 r R.
Hypothesis accs : Store.tied m c h0 st0.

Lemma store_for_in_refines bodyS bodyP l props (ps : Recipe) st :
  (∀ st', Store.read_recipe (Store.upd m c h0 st') l = Some props) →
  (∀ n q, (n, q) ∈ ps → prop props n = Some q) →
  (∀ n q st',
     (n, q) ∈ ps → prop props n = Some q →
     (Store.read_recipe (Store.upd m c h0 st') l ≫= (λ ps', prop ps' n))
       ≫= (λ q', bodyS n q' (Store.upd m c h0 st'))
     = Store.upd m c h0 <$> bodyP n q st') →
  Store.for_in
    (λ n h', (Store.read_recipe h' l ≫= (λ ps', prop ps' n))
               ≫= (λ q', bodyS n q' h'))
    (ps.*1) (Store.upd m c h0 st)
  = Store.upd m c h0 <$> for_in bodyP ps st.
Proof using Type.
  intros Hread. revert st.
  induction ps as [|[n q] ps IH]; intros st Hprop Hbody; [done|].
  simpl. case_decide.
  - apply IH.
    + intros n' q' Hin. apply Hprop. by right.
    + intros n' q' st' Hin. apply Hbody. by right.
  - rewrite (Hbody n q st); [|by left|apply Hprop; by left].
    destruct (bodyP n q st) as [st'|]; simpl; [|done].
    apply IH.
    + intros n' q' Hin. apply Hprop. by right.
    + intros n' q' st'' Hin. apply Hbody. by right.
Qed.

Lemma read_table_upd st tb :
  h0 !! r = Some (Store.Table tb) →
  Store.read_table (Store.upd m c h0 st) r = Some tb.
Proof using accs.
  intros Hr. unfold Store.read_table.
  by rewrite (upd_lookup_other m c h0 st0 st r _ accs Hr).
Qed.

Lemma read_recipe_upd st l props :
  h0 !! l = Some (Store.RecipeObj props) →
  Store.read_recipe (Store.upd m c h0 st) l = Some props.
Proof using accs.
  intros Hl. unfold Store.read_recipe.
  by rewrite (upd_lookup_other m c h0 st0 st l _ accs Hl).
Qed.

(** Run on a heap that holds the table and the accumulators of [st], the
    store-level [processRecipe] returns exactly when the functional one
    does, and leaves the heap with the accumulators of its result. *)
Lemma store_processRecipe_refines fuel item a st :
  Store.processRecipe fuel r m c item a (Store.upd m c h0 st)
  = Store.upd m c h0 <$> processRecipe fuel R item a st.
Proof using table accs.
  destruct table as (tb & Hr & Htab).
  assert (m ≠ c) as Hne by apply accs.
  revert item a st. induction fuel as [|fuel IH]; intros item a st; [done|].
  cbn [Store.processRecipe processRecipe].
  rewrite (read_table_upd _ _ Hr). cbn [mbind option_bind].
  specialize (Htab item). destruct (tb !! item) as [l|].
  - destruct Htab as (props & Hl & HR & Hnd). rewrite HR.
    rewrite (read_recipe_upd _ _ _ Hl). cbn [mbind option_bind].
    rewrite add_to_upd_c by done. cbn [mbind option_bind].
    apply (store_for_in_refines
             (λ n q', Store.processRecipe fuel r m c n
                        (num_mul (Fin q')
                           (ceil_div a (prop props "output"))))
             (λ n q, processRecipe fuel R n
                        (num_mul (Fin q)
                           (ceil_div a (prop props "output"))))
             l props).
    + intros st'. by apply read_recipe_upd.
    + intros n q Hin. by apply prop_NoDup.
    + intros n q st' Hin Hq. rewrite (read_recipe_upd _ _ _ Hl).
      cbn [mbind option_bind]. rewrite Hq. cbn [mbind option_bind].
      apply IH.
  - rewrite Htab. by rewrite add_to_upd_m.
Qed.
End store_refinement.

Lemma holds_alloc h r R l o :
  Store.holds h r R → l ∉ dom h → Store.holds (<[l := o]> h) r R.
Proof.
  intros (tb & Hr & Htab) Hl. apply not_elem_of_dom in Hl.
  exists tb. split.
  - rewrite lookup_insert_ne; [done|]. intros ->. congruence.
  - intros name. specialize (Htab name). destruct (tb !! name) as [l'|]; [|done].
    destruct Htab as (props & Hl' & HR & Hnd). exists props.
    split_and!; [|done..]. rewrite lookup_insert_ne; [done|].
    intros ->. congruence.
Qed.

Lemma store_run_refines fuel R r m c t q h :
  Store.holds h r R → m ∉ dom h → c ∉ dom h → m ≠ c →
  Store.processRecipe fuel r m c t q
    (<[c := Store.Totals ∅]> (<[m := Store.Totals ∅]> h))
  = Store.upd m c h <$> calculateMaterials fuel R t q.
Proof.
  intros Hh Hm Hc Hne. unfold calculateMaterials.
  set (h2 := <[c := Store.Totals ∅]> (<[m := Store.Totals ∅]> h)).
  assert (Store.tied m c h2 (State ∅ ∅)) as Htied.
  { apply (tied_upd m c h (State ∅ ∅) Hne). }
  assert (Store.holds h2 r R) as Hh2.
  { apply holds_alloc; [by apply holds_alloc|].
    rewrite dom_insert_L. set_solver. }
  rewrite <- (upd_id m c h2 (State ∅ ∅) Htied) at 1.
  rewrite (store_processRecipe_refines R r m c h2 (State ∅ ∅) Hh2 Htied).
  destruct (processRecipe fuel R t q _) as [st|]; simpl; [|done].
  f_equal. apply (upd_upd m c h (State ∅ ∅) st).
Qed.

(** C9.  At the level of the store: whatever heap the caller has and
    whatever the arguments, when the call returns it has created three
    objects (the two accumulators and the object that is returned, which
    refers to them) and written to nothing else.  Every object of the
    caller's heap (the recipe table, every recipe, every property of every
    recipe) is after the call what it was before, and the heap has grown
    by exactly the new objects.  When the heap held a recipe table [R]
    behind [recipes] it still does, and the two accumulators hold the
    [materials] and [crafts] that [calculateMaterials] computes from [R]. *)
Theorem recipes_untouched fuel r t q h res h' :
  Store.calculateMaterials fuel r t q h = Some (res, h') →
  ∃ m c,
    h' !! res = Some (Store.Result m c)
    ∧ ({[res; m; c]} : gset Store.loc) ## dom h
    ∧ m ≠ c ∧ res ≠ m ∧ res ≠ c
    ∧ dom h' = {[res; m; c]} ∪ dom h
    ∧ (∀ l o, h !! l = Some o → h' !! l = Some o)
    ∧ (∀ R, Store.holds h r R →
            Store.holds h' r R
            ∧ ∃ st, calculateMaterials fuel R t q = Some st
                    ∧ h' !! m = Some (Store.Totals (materialsNeeded st))
                    ∧ h' !! c = Some (Store.Totals (craftsNeeded st))).
Proof.
  intros Hrun.
  pose proof (is_fresh (dom h)) as Hm.
  pose proof (is_fresh (dom (<[fresh (dom h) := Store.Totals ∅]> h))) as Hc.
  unfold Store.calculateMaterials, Store.alloc in Hrun.
  set (m := fresh (dom h)) in *.
  set (c := fresh (dom (<[m := Store.Totals ∅]> h))) in *.
  destruct (Store.processRecipe fuel r m c t q _) as [h3|] eqn:Hp; [|done].
  simpl in Hrun. injection Hrun as <- <-.
  pose proof (is_fresh (dom h3)) as Hres.
  set (res := fresh (dom h3)) in *.
  assert ((c ∉ dom h) ∧ m ≠ c) as [Hc' Hne].
  { rewrite dom_insert_L in Hc. set_solver. }
  pose proof (store_processRecipe_frame _ _ _ _ _ _ _ _ Hp) as [Hdom Hframe].
  rewrite !dom_insert_L in Hdom.
  assert (res ≠ m ∧ res ≠ c ∧ res ∉ dom h) as (Hrm & Hrc & Hrh).
  { rewrite Hdom in Hres. set_solver. }
  exists m, c. split_and!; [|set_solver|done..| | |].
  - by rewrite lookup_insert_eq.
  - rewrite dom_insert_L, Hdom. set_solver.
  - intros l o Hl. pose proof (elem_of_dom_2 _ _ _ Hl) as Hin.
    assert (l ≠ m ∧ l ≠ c ∧ l ≠ res) as (? & ? & ?).
    { split_and!; intros ->; done. }
    rewrite lookup_insert_ne by done.
    rewrite Hframe by done. by rewrite !lookup_insert_ne.
  - intros R HR.
    rewrite (store_run_refines fuel R r m c t q h HR Hm Hc' Hne) in Hp.
    destruct (calculateMaterials fuel R t q) as [st|]; simpl in Hp; [|done].
    injection Hp as <-. split.
    + apply holds_alloc; [|done]. unfold Store.upd.
      apply holds_alloc; [by apply holds_alloc|].
      rewrite dom_insert_L. set_solver.
    + exists st. split; [done|].
      destruct (tied_upd m c h st Hne) as (Hm' & Hc'' & _).
      by rewrite !(lookup_insert_ne _ res) by done.
Qed.

(** The store-level call returns whenever the functional one does. *)
Lemma store_calculateMaterials_returns fuel R r t q h st :
  Store.holds h r R →
  calculateMaterials fuel R t q = Some st →
  ∃ res h', Store.calculateMaterials fuel r t q h = Some (res, h').
Proof.
  intros Hh Hrun.
  pose proof (is_fresh (dom h)) as Hm.
  pose proof (is_fresh (dom (<[fresh (dom h) := Store.Totals ∅]> h))) as Hc.
  unfold Store.calculateMaterials, Store.alloc.
  set (m := fresh (dom h)) in *.
  set (c := fresh (dom (<[m := Store.Totals ∅]> h))) in *.
  assert ((c ∉ dom h) ∧ m ≠ c) as [Hc' Hne].
  { rewrite dom_insert_L in Hc. set_solver. }
  rewrite (store_run_refines fuel R r m c t q h Hh Hm Hc' Hne), Hrun.
  simpl. by eexists _, _.
Qed.

Ltac table_lookup :=
  repeat (rewrite lookup_insert_eq || rewrite lookup_singleton_eq
          || (rewrite lookup_insert_ne by done)
          || (rewrite lookup_singleton_ne by done)).

Lemma example_heap_holds : Store.holds Store.example_heap 1%positive recipes.
Proof.
  exists {[ "ironBar" := 2%positive; "nails" := 3%positive;
            "copperBar" := 4%positive; "transferBoxes" := 5%positive ]}.
  split; [vm_compute; reflexivity|]. intros name. unfold recipes.
  destruct (decide (name = "ironBar")) as [->|?];
    [|destruct (decide (name = "nails")) as [->|?];
      [|destruct (decide (name = "copperBar")) as [->|?];
        [|destruct (decide (name = "transferBoxes")) as [->|?]]]];
    table_lookup; [..|done];
    (eexists; split_and!;
       [vm_compute; reflexivity|reflexivity|
        apply (bool_decide_unpack _); vm_compute; exact I]).
Qed.

Lemma recipes_untouched_witness :
  ∃ res h',
    Store.calculateMaterials 4 1%positive "nails" (Fin 25) Store.example_heap
    = Some (res, h')
    ∧ (∀ l o, Store.example_heap !! l = Some o → h' !! l = Some o).
Proof.
  destruct (Store.calculateMaterials 4 1%positive "nails" (Fin 25)
              Store.example_heap) as [[res h']|] eqn:E.
  - exists res, h'. split; [reflexivity|].
    destruct (recipes_untouched 4 1%positive "nails" (Fin 25)
                Store.example_heap res h' E)
      as (m & c & _ & _ & _ & _ & _ & _ & Hsame & _).
    exact Hsame.
  - vm_compute in E. discriminate E.
Defined.

(** * Further properties of the resolver *)

(** ** Cycles *)

Lemma for_in_calls_None body (r : Recipe) st n q :
  (n, q) ∈ r → n ≠ "output" → (∀ s, body n q s = None) →
  for_in_calls body r st = None.
Proof.
  intros Hin Hn Hb. revert st.
  induction r as [|[n' q'] r IH]; intros st.
  { by apply elem_of_nil in Hin. }
  simpl. apply elem_of_cons in Hin as [[= <- <-]|Hin].
  - rewrite decide_False by done. by rewrite Hb.
  - case_decide; [by apply IH|].
    destruct (body n' q' st) as [[s c]|]; [|done].
    by rewrite IH.
Qed.

Lemma reaches_cycle_step R item :
  reaches_cycle R item →
  ∃ n, ingredient R item n ∧ reaches_cycle R n.
Proof.
  intros (x & Hreach & Hcyc). destruct Hreach as [x|x n z Hstep Hrest].
  - inversion Hcyc as [? ? Hxx|? y ? Hxy Hyx]; subst.
    + exists x. split; [done|]. exists x. split; [apply rtc_refl|done].
    + exists y. split; [done|]. exists y. split; [apply rtc_refl|].
      by eapply tc_r.
  - exists n. split; [done|]. by exists z.
Qed.

Lemma reaches_cycle_None R fuel item a st :
  reaches_cycle R item → processRecipe_calls fuel R item a st = None.
Proof.
  revert item a st. induction fuel as [|fuel IH]; intros item a st Hc; [done|].
  destruct (reaches_cycle_step R item Hc)
    as (n & (rec & q & Hrec & Hin & Hn) & Hcn).
  simpl. rewrite Hrec.
  rewrite (for_in_calls_None _ rec _ n q Hin Hn); [done|].
  intros s. by apply IH.
Qed.

Lemma chain_reaches R k l :
  chain R (k :: l) → Forall (reaches R k) (k :: l).
Proof.
  intros Hc. constructor; [apply rtc_refl|].
  apply Forall_forall. intros x Hx. apply tc_rtc. by eapply chain_tc.
Qed.

Lemma no_cycle_chain_NoDup R t l :
  ¬ reaches_cycle R t → chain R l → Forall (reaches R t) l → NoDup l.
Proof.
  intros Hno. induction l as [|k l IH]; intros Hc Hr; [constructor|].
  apply Forall_cons in Hr as [Hk Hr]. constructor.
  - intros Hin. apply Hno. exists k. split; [done|]. by apply (chain_tc R k l).
  - apply IH; [by eapply chain_tail|done].
Qed.

Lemma no_cycle_terminates R t a st :
  ¬ reaches_cycle R t →
  is_Some (processRecipe_calls (S (size R)) R t a st).
Proof.
  intros Hno. apply terminates_within_chain. intros l Hl.
  assert (NoDup (t :: l)) as Hnd.
  { eapply no_cycle_chain_NoDup; [done..|]. by apply chain_reaches. }
  destruct (chain_keys R (t :: l) Hl Hnd) as (X & HX1 & _ & HX3).
  apply subseteq_size in HX1. rewrite size_dom in HX1. lia.
Qed.

(** X1.  The resolver has no cycle detection, and its termination is
    decided by the table alone: when the target reaches an item that is
    its own ingredient the call returns at no recursion budget, whatever
    the quantity; otherwise it returns within one frame more than the
    number of recipes. *)
Theorem returns_iff_no_cycle R t q :
  (reaches_cycle R t → ∀ fuel, calculateMaterials fuel R t q = None)
  ∧ (¬ reaches_cycle R t →
     is_Some (calculateMaterials (S (size R)) R t q)).
Proof.
  split.
  - intros Hc fuel. unfold calculateMaterials. rewrite processRecipe_erase.
    by rewrite reaches_cycle_None.
  - intros Hno. unfold calculateMaterials. rewrite processRecipe_erase.
    destruct (no_cycle_terminates R t q (State ∅ ∅) Hno) as [[s c] ->].
    by eexists.
Qed.

Lemma looped_gate_hinge : ingredient looped "gate" "hinge".
Proof.
  exists [("hinge", 2); ("output", 1)], 2.
  split; [vm_compute; reflexivity|]. split; [by left|done].
Qed.

Lemma looped_hinge_pin : ingredient looped "hinge" "pin".
Proof.
  exists [("pin", 1); ("output", 1)], 1.
  split; [vm_compute; reflexivity|]. split; [by left|done].
Qed.

Lemma looped_pin_hinge : ingredient looped "pin" "hinge".
Proof.
  exists [("hinge", 1); ("output", 4)], 1.
  split; [vm_compute; reflexivity|]. split; [by left|done].
Qed.

Lemma returns_iff_no_cycle_witness :
  calculateMaterials 50 looped "gate" (Fin 3) = None.
Proof.
  destruct (returns_iff_no_cycle looped "gate" (Fin 3)) as [Hnone _].
  apply Hnone. exists "hinge". split.
  - eapply rtc_l; [exact looped_gate_hinge|apply rtc_refl].
  - eapply tc_l; [exact looped_hinge_pin|]. apply tc_once, looped_pin_hinge.
Defined.

(** ** The items a run visits *)

Lemma nodes_reachable fuel R item a st st' c :
  processRecipe_calls fuel R item a st = Some (st', c) →
  Forall (λ n, tc (ingredient R) item (call_item n))
         (concat (nodes <$> call_sub c)).
Proof.
  revert item a st st' c.
  induction fuel as [|fuel IH]; intros item a st st' c Hc; [done|].
  pose proof (processRecipe_calls_sub _ _ _ _ _ _ _ Hc) as Hsub.
  destruct (R !! item) as [rec|] eqn:Hrec; [|rewrite Hsub; constructor].
  destruct Hsub as (fuel' & [= <-] & Hsub).
  apply Forall_concat, Forall_fmap.
  assert (Forall (λ p : string * Z, ingredient R item p.1) (ingredients rec))
    as Hedge.
  { apply Forall_forall. intros [n q] Hp.
    apply elem_of_ingredients in Hp as [Hp Hn]. by exists rec, q. }
  clear Hc Hrec.
  induction Hsub as [|[n q] c' ps cs (s & s' & Hc') _ IH']; constructor.
  - apply Forall_cons in Hedge as [Hn _]. simpl in Hn, Hc'.
    destruct (processRecipe_calls_root _ _ _ _ _ _ _ Hc') as [Hi _].
    destruct c' as [i x sub]. simpl in Hi. subst i. simpl.
    constructor; [by apply tc_once|].
    eapply Forall_impl; [exact (IH _ _ _ _ _ Hc')|].
    intros n' Hn'. simpl in Hn'. by eapply tc_l.
  - apply IH'. by apply Forall_cons in Hedge as [_ ?].
Qed.










(** ** The batches of the target *)

Lemma target_demanded_once fuel R t q st st' c :
  ¬ tc (ingredient R) t t →
  processRecipe_calls fuel R t q st = Some (st', c) →
  demands t c = [q].
Proof.
  intros Hno Hc.
  destruct (processRecipe_calls_root _ _ _ _ _ _ _ Hc) as [Hi Ha].
  pose proof (nodes_reachable _ _ _ _ _ _ _ Hc) as Htail.
  destruct c as [i a sub]. simpl in Hi, Ha, Htail. subst i a.
  unfold demands. simpl nodes. rewrite filter_cons_True by done.
  rewrite fmap_cons. f_equal.
  assert (filter (λ n, call_item n = t) (concat (nodes <$> sub)) = []) as ->;
    [|done].
  induction Htail as [|n l Hn _ IH]; [done|].
  rewrite filter_cons_False; [done|]. intros Heq. apply Hno. by rewrite <- Heq at 2.
Qed.

(** X3.  When the target is a recipe that is not, directly or indirectly,
    its own ingredient, it is crafted for the requested quantity alone:
    [crafts[target] = Math.ceil(quantity / output)], whatever else the
    table holds. *)
Theorem target_batches fuel R t q st rec :
  ¬ tc (ingredient R) t t →
  R !! t = Some rec →
  calculateMaterials fuel R t q = Some st →
  craftsNeeded st !! t = Some (ceil_div q (prop rec "output")).
Proof.
  intros Hno Hrec Hrun. destruct (run_inv _ _ _ _ _ Hrun) as (c & Hc & Htree).
  rewrite (run_crafts _ _ _ _ _ _ _ _ Hrun Htree Hrec).
  rewrite (target_demanded_once _ _ _ _ _ _ _ Hno Hc).
  apply acc_all_one.
Qed.

Lemma recipes_acyclic : acyclic recipes.
Proof. exact (ranked_acyclic rank_of recipes recipes_ranked). Qed.

Lemma target_batches_witness :
  ∃ st, calculateMaterials 4 recipes "transferBoxes" (Fin 5) = Some st
        ∧ craftsNeeded st !! "transferBoxes" = Some (Fin 5).
Proof.
  eexists. split; [vm_compute; reflexivity|].
  apply (target_batches 4 recipes "transferBoxes" (Fin 5) _
           [("copperBar", 1); ("nails", 5); ("softwood", 2); ("output", 1)]).
  - apply recipes_acyclic.
  - vm_compute. reflexivity.
  - vm_compute. reflexivity.
Defined.

(** X4.  Nothing validates [output].  For a target recipe that is not its
    own ingredient: a missing [output] gives [crafts[target] = NaN]; an
    [output] of 0 gives [Infinity], [-Infinity] or [NaN] as the quantity
    is positive, negative or zero; a negative [output] and a positive
    quantity give a batch count that is zero or negative. *)
Theorem degenerate_output fuel R t q st rec :
  ¬ tc (ingredient R) t t →
  R !! t = Some rec →
  calculateMaterials fuel R t (Fin q) = Some st →
  (prop rec "output" = None → craftsNeeded st !! t = Some NaN)
  ∧ (prop rec "output" = Some 0 →
     craftsNeeded st !! t
     = Some (if q =? 0 then NaN else if 0 <? q then PInf else NInf))
  ∧ (∀ o, prop rec "output" = Some o → o < 0 → 0 < q →
          ∃ k, craftsNeeded st !! t = Some (Fin k) ∧ k ≤ 0).
Proof.
  intros Hno Hrec Hrun.
  assert (craftsNeeded st !! t = Some (ceil_div (Fin q) (prop rec "output")))
    as Hb.
  { destruct (run_inv _ _ _ _ _ Hrun) as (c & Hc & Htree).
    rewrite (run_crafts _ _ _ _ _ _ _ _ Hrun Htree Hrec).
    rewrite (target_demanded_once _ _ _ _ _ _ _ Hno Hc).
    apply acc_all_one. }
  split_and!.
  - intros Ho. by rewrite Hb, Ho.
  - intros Ho. rewrite Hb, Ho. simpl. by destruct (q =? 0).
  - intros o Ho Hneg Hq. rewrite Hb, Ho, ceil_div_fin by lia.
    eexists. split; [done|]. unfold cdiv.
    pose proof (Z.div_mod (- q) o ltac:(lia)) as Hdm.
    pose proof (Z.mod_neg_bound (- q) o Hneg) as Hm. nia.
Qed.

Lemma degenerate_output_witness :
  calculateMaterials 2 voided "glass" (Fin 4)
  = Some (State {[ "sand" := PInf ]} {[ "glass" := PInf ]})
  ∧ craftsNeeded (State {[ "sand" := PInf ]} {[ "glass" := PInf ]}) !! "glass"
    = Some PInf.
Proof.
  split; [vm_compute; reflexivity|].
  destruct (degenerate_output 2 voided "glass" 4
              (State {[ "sand" := PInf ]} {[ "glass" := PInf ]})
              [("sand", 3); ("output", 0)]) as (_ & Hzero & _).
  - apply (ranked_acyclic (λ n, if decide (n = "glass") then 1 else 0)%nat).
    apply (bool_decide_unpack _). vm_compute. exact I.
  - vm_compute. reflexivity.
  - vm_compute. reflexivity.
  - apply Hzero. vm_compute. reflexivity.
Defined.

(** ** How much the rounding adds *)




(** ** Asking for more never yields less *)


Section monotone.
Context (R : gmap string Recipe).
Hypothesis outputs : positive_outputs R.
Hypothesis quantities : nonneg_quantities R.


End monotone.









(** ** One order instead of two *)


Section subadditive.
Context (R : gmap string Recipe).
Hypothesis outputs : positive_outputs R.
Hypothesis quantities : nonneg_quantities R.


End subadditive.







(** ** The order of the properties of a recipe *)









Section permuted_tables.
Context (R R' : gmap string Recipe).
Hypothesis names : unique_names R.
Hypothesis same : same_recipes R R'.

End permuted_tables.










Lemma hollow_reordered_same : same_recipes hollow hollow_reordered.
Proof.
  intros k. unfold hollow, hollow_reordered.
  destruct (decide (k = "frame")) as [->|?];
    [|destruct (decide (k = "panel")) as [->|?]].
  1-2: vm_compute; constructor; apply (bool_decide_unpack _); vm_compute;
    exact I.
  rewrite !lookup_insert_ne, !lookup_singleton_ne by done.
  constructor.
Qed.

(** X14. Without the positive outputs the order of the properties does
    matter. The recipe of [frame] has an [output] of 0 and asks for 0 of
    [panel] and 1 of [sand]; [panel] is made of [sand]. For every count
    other than 0, the run reports an infinite amount of [sand] when the
    recipe lists [panel] before [sand], and [NaN] when it lists [sand]
    first: a [NaN] total is read back as 0 by [(total || 0)], so that
    only a [NaN] added last survives. *)
Theorem property_order_matters q :
  q ≠ 0 →
  unique_names hollow ∧ same_recipes hollow hollow_reordered ∧
  ∃ st st',
    calculateMaterials 3 hollow "frame" (Fin q) = Some st
    ∧ calculateMaterials 3 hollow_reordered "frame" (Fin q) = Some st'
    ∧ materialsNeeded st !! "sand" = Some (inf_of_sign q)
    ∧ materialsNeeded st' !! "sand" = Some NaN.
Proof.
  intros Hq.
  split; [apply (bool_decide_unpack _); vm_compute; exact I|].
  split; [apply hollow_reordered_same|].
  destruct q as [|p|p]; [done| |].
  - eexists _, _. split_and!; [vm_compute; reflexivity..|done|done].
  - eexists _, _. split_and!; [vm_compute; reflexivity..|done|done].
Qed.

Lemma property_order_matters_witness :
  ∃ st st',
    calculateMaterials 3 hollow "frame" (Fin 5) = Some st
    ∧ calculateMaterials 3 hollow_reordered "frame" (Fin 5) = Some st'
    ∧ materialsNeeded st !! "sand" = Some PInf
    ∧ materialsNeeded st' !! "sand" = Some NaN.
Proof.
  assert (5 ≠ 0) as H by lia.
  exact (proj2 (proj2 (property_order_matters 5 H))).
Defined.

(** ** Recipes made of raw materials only *)







(** * The single-level calculator *)

(** ** How numbers print *)




(** ** The guard that comes too late *)




(** ** What [craft] prints *)



(** ** The two calculators side by side *)

(** X10.  On the number of crafts the two calculators agree: for an item
    that is not its own ingredient, with a positive [output], and a
    positive count, the count of crafts that [craft] prints is
    [crafts[item]] of the resolver, and the output it prints is
    [output * crafts[item]]. *)
Theorem craft_agrees_on_crafts fuel R item count rec o st :
  ¬ tc (ingredient R) item item →
  R !! item = Some rec →
  prop rec "output" = Some o →
  0 < o →
  0 < count →
  calculateMaterials fuel R item (Fin count) = Some st →
  ∃ n,
    craftsNeeded st !! item = Some (Fin n)
    ∧ LogText ("Crafting " +:+ pretty n +:+ " times for " +:+ item +:+ ".")
        ∈ (craft R item (Fin count)).1
    ∧ LogText ("Output: " +:+ pretty (o * n) +:+ " " +:+ item)
        ∈ (craft R item (Fin count)).1.
Proof.
  intros Hno Hrec Ho Hpos Hc Hrun. exists (cdiv count o).
  destruct (run_inv _ _ _ _ _ Hrun) as (c & Hcalls & Htree).
  split_and!.
  - rewrite (run_crafts _ _ _ _ _ _ _ _ Hrun Htree Hrec).
    rewrite (target_demanded_once _ _ _ _ _ _ _ Hno Hcalls).
    rewrite Ho. etrans; [apply acc_all_one|].
    f_equal. apply ceil_div_fin. lia.
  - pose proof (cdiv_spec count o Hpos) as Hspec.
    unfold craft. rewrite Hrec.
    cbn [read_output fmap option_fmap option_map falsy materials_of].
    rewrite Ho, ceil_div_fin by lia.
    cbn [strict_zero le_zero times_output num_mul show].
    destruct (Z.eqb_spec count 0); [lia|].
    destruct (Z.leb_spec (cdiv count o) 0); [nia|].
    cbn [fst]. apply elem_of_app. right. apply elem_of_app. left. by left.
  - pose proof (cdiv_spec count o Hpos) as Hspec.
    unfold craft. rewrite Hrec.
    cbn [read_output fmap option_fmap option_map falsy materials_of].
    rewrite Ho, ceil_div_fin by lia.
    cbn [strict_zero le_zero times_output num_mul show].
    destruct (Z.eqb_spec count 0); [lia|].
    destruct (Z.leb_spec (cdiv count o) 0); [nia|].
    cbn [fst]. apply elem_of_app. right. apply elem_of_app. right.
    apply elem_of_app. right. by left.
Qed.

Lemma craft_agrees_on_crafts_witness :
  ∃ n,
    craftsNeeded (State {[ "ironOre" := Fin 8350; "coal" := Fin 8350 ]}
                        {[ "ironBar" := Fin 334 ]}) !! "ironBar"
    = Some (Fin n)
    ∧ LogText ("Crafting " +:+ pretty n +:+ " times for " +:+ "ironBar" +:+ ".")
        ∈ (craft recipes "ironBar" (Fin 2000)).1
    ∧ LogText ("Output: " +:+ pretty (6 * n) +:+ " " +:+ "ironBar")
        ∈ (craft recipes "ironBar" (Fin 2000)).1.
Proof.
  apply (craft_agrees_on_crafts 2 recipes "ironBar" 2000
           [("ironOre", 25); ("coal", 25); ("output", 6)] 6).
  - apply recipes_acyclic.
  - vm_compute. reflexivity.
  - vm_compute. reflexivity.
  - lia.
  - lia.
  - vm_compute. reflexivity.
Defined.

(** X11.  On the amounts they can differ, and [craft] can ask for more
    than is needed: it rounds the double [count * (perBatch / output)]
    up, and that product is not always the exact one.  For the recipe
    [{bar: 7, output: 3}] and 27 rods, 63 bars are needed exactly
    (9 batches of 7); the resolver returns 63 and [craft] prints 64. *)
Theorem craft_overshoots :
  27 * 7 = 3 * 63
  ∧ calculateMaterials 2 thirds "rod" (Fin 27)
    = Some (State {[ "bar" := Fin 63 ]} {[ "rod" := Fin 9 ]})
  ∧ craft thirds "rod" (Fin 27)
    = ([LogObject (Some [("bar", 7); ("output", 3)]);
        LogText "Crafting 9 times for rod.";
        LogText "Required materials:";
        LogText "64 bar";
        LogText "Output: 27 rod"], Returned).
Proof. split; [done|]. split; vm_compute; reflexivity. Qed.

Lemma scaled_without_output count q : scaled count q None = NaN.
Proof.
  unfold scaled.
  assert (∀ x, SFdiv 53 1024 x S754_nan = S754_nan) as Hdiv
    by (by intros [| | |]).
  assert (∀ x, SFmul 53 1024 x S754_nan = S754_nan) as Hmul
    by (by intros [| | |]).
  by rewrite Hdiv, Hmul.
Qed.

(** X15.  A recipe without an [output] property: for every count but 0,
    [craft] passes both guards ([NaN <= 0] is false) and logs [NaN] as the
    number of crafts, as the amount of every ingredient and as the
    output. *)
Theorem craft_without_output R item count rec :
  R !! item = Some rec →
  prop rec "output" = None →
  count ≠ 0 →
  craft R item (Fin count)
  = (([LogObject (Some rec);
       LogText ("Crafting NaN times for " +:+ item +:+ ".");
       LogText "Required materials:"]
        ++ ((λ p : string * Z, LogText ("NaN " +:+ p.1)) <$> ingredients rec)
        ++ [LogText ("Output: NaN " +:+ item)])%list,
     Returned).
Proof.
  intros Hrec Ho Hc. unfold craft. rewrite Hrec.
  cbn [read_output fmap option_fmap option_map]. rewrite Ho.
  cbn [strict_zero falsy ceil_div le_zero times_output show materials_of].
  destruct (Z.eqb_spec count 0) as [|_]; [done|].
  rewrite <- list_fmap_compose. cbn [app]. do 4 f_equal.
  apply (f_equal2 app); [|done].
  apply list_fmap_ext. intros k [n q] _. cbn.
  by rewrite scaled_without_output.
Qed.

Lemma craft_without_output_witness :
  craft {[ "glass" := [("sand", 3)] ]} "glass" (Fin 4)
  = ([LogObject (Some [("sand", 3)]);
      LogText "Crafting NaN times for glass.";
      LogText "Required materials:";
      LogText "NaN sand";
      LogText "Output: NaN glass"], Returned).
Proof.
  apply (craft_without_output {[ "glass" := [("sand", 3)] ]} "glass" 4
           [("sand", 3)]); [vm_compute; reflexivity..|lia].
Defined.

(** The script as it stands: one call, for 2000 iron bars. *)
Example craft_call_trace :
  craft_call
  = ([LogObject (Some [("ironOre", 25); ("coal", 25); ("output", 6)]);
      LogText "Crafting 334 times for ironBar.";
      LogText "Required materials:";
      LogText "8334 ironOre";
      LogText "8334 coal";
      LogText "Output: 2004 ironBar"], Returned).
Proof. vm_compute. reflexivity. Qed.
